(** * astroVizualizer: the React/Three.js scene renderer

    A shallow embedding of the two frontend components of the repository,

    - [App] (src/frontend/src/App.tsx): the one-shot fetch of the scene
      payload and the choice between the loading, error and scene displays;
    - [AsteroidScene] (src/frontend/src/components/AsteroidScene.tsx): the
      declarative mapping of the payload to spheres and orbit lines, and the
      per-frame rotation of the group holding them.

    JSX is embedded as a first-order tree of elements, one constructor per
    element type the source uses, carrying the props the source passes.  JS
    numbers are IEEE 754 binary64 values, here Rocq's primitive floats.  The
    React state of [App] is a record of the three [useState] cells; the
    asynchronous fetch is split at its [await] into the request and the
    continuation run when the promise settles. *)

From Stdlib Require Import PrimFloat Uint63.
From stdpp Require Import base option list strings gmap.

Set Warnings "-inexact-float,-register-all".

(** ** Data model (interface [AsteroidSceneProps]) *)

Definition number : Set := float.
Definition vec3 : Set := number * number * number.

Module Asteroid.
Record t : Set := mk {
  id : string;
  name : string;
  position : vec3;
  size : number;
  orbit : list vec3
}.
End Asteroid.

Record SceneData : Set := { asteroids : list Asteroid.t }.

(** ** JSX elements

    [key] is React's reconciliation key, [ref] records that the element is
    given [ref={groupRef}].  [ChildArray] is a JS array used as a child, as
    produced by [data.asteroids.map(...)]; [Null] is a child that renders
    nothing (the value of [sceneData && ...] when [sceneData] is [null]). *)

Inductive Element : Type :=
| Null
| Text (s : string)
| ChildArray (items : list Element)
| div (className : string) (children : list Element)
| Canvas (camera_position : vec3) (camera_fov : number)
         (children : list Element)
| color (attach : string) (args : list string)
| Stars (radius depth count factor saturation : number)
| OrbitControls (enablePan enableZoom enableRotate : bool)
| ambientLight (intensity : number)
| pointLight (position : vec3) (intensity : number)
| group (key : option string) (ref : bool) (children : list Element)
| Sphere (args : number * number * number) (position : vec3)
         (children : list Element)
| meshStandardMaterial (color : string) (emissive : option string)
                       (emissiveIntensity roughness metalness : option number)
| Line (points : list vec3) (color : string) (lineWidth opacity : number)
       (transparent : bool).

(** ** [AsteroidScene]: the render function *)

Definition sun : Element :=
  Sphere (1, 32, 32)%float (0, 0, 0)%float
    [meshStandardMaterial "yellow" (Some "yellow") (Some 0.6%float) None None].

Definition asteroid_sphere (asteroid : Asteroid.t) : Element :=
  Sphere (Asteroid.size asteroid, 16, 16)%float (Asteroid.position asteroid)
    [meshStandardMaterial "gray" None None (Some 0.7%float) (Some 0.3%float)].

Definition asteroid_line (asteroid : Asteroid.t) : Element :=
  Line (Asteroid.orbit asteroid) "white" 1%float 0.3%float true.

Definition asteroid_group (asteroid : Asteroid.t) : Element :=
  group (Some (Asteroid.id asteroid)) false
    [asteroid_sphere asteroid; asteroid_line asteroid].

Definition AsteroidScene (data : SceneData) : Element :=
  group None true
    [sun; ChildArray (asteroid_group <$> asteroids data)].

(** ** Observations on an element tree *)

(** The sphere meshes of a tree, in document order. *)
Fixpoint spheres (e : Element) : list Element :=
  match e with
  | Sphere _ _ cs => e :: flat_map spheres cs
  | ChildArray cs | div _ cs | Canvas _ _ cs | group _ _ cs =>
      flat_map spheres cs
  | _ => []
  end.

(** The polylines of a tree, in document order. *)
Fixpoint lines (e : Element) : list Element :=
  match e with
  | Line _ _ _ _ _ => [e]
  | ChildArray cs | div _ cs | Canvas _ _ cs | group _ _ cs
  | Sphere _ _ cs => flat_map lines cs
  | _ => []
  end.

(** [SphereGeometry(radius, widthSegments, heightSegments)]: the radius is
    the first entry of [args]. *)
Definition sphere_radius (e : Element) : option number :=
  match e with Sphere (r, _, _) _ _ => Some r | _ => None end.

Definition sphere_position (e : Element) : option vec3 :=
  match e with Sphere _ p _ => Some p | _ => None end.

Definition sphere_material (e : Element) : list Element :=
  match e with Sphere _ _ cs => cs | _ => [] end.

Definition line_points (e : Element) : option (list vec3) :=
  match e with Line pts _ _ _ _ => Some pts | _ => None end.

Definition element_key (e : Element) : option string :=
  match e with group k _ _ => k | _ => None end.

Definition element_children (e : Element) : list Element :=
  match e with
  | ChildArray cs | div _ cs | Canvas _ _ cs | group _ _ cs
  | Sphere _ _ cs => cs
  | _ => []
  end.

(** The items of the child array of the scene's root group: one entry per
    asteroid. *)
Definition asteroid_items (scene : Element) : list Element :=
  match element_children scene with
  | [_; ChildArray items] => items
  | _ => []
  end.

(** ** [App]: the three [useState] cells and the fetch *)

Record AppState : Set := {
  sceneData : option SceneData;
  loading : bool;
  error : option string
}.

(** [useState(null)], [useState(true)], [useState<string | null>(null)]. *)
Definition App_initial : AppState :=
  {| sceneData := None; loading := true; error := None |}.

Inductive StateUpdate : Set :=
| setSceneData (v : option SceneData)
| setLoading (v : bool)
| setError (v : option string).

Definition apply_update (s : AppState) (u : StateUpdate) : AppState :=
  match u with
  | setSceneData v => {| sceneData := v; loading := loading s; error := error s |}
  | setLoading v => {| sceneData := sceneData s; loading := v; error := error s |}
  | setError v => {| sceneData := sceneData s; loading := loading s; error := v |}
  end.

(** The setters queue updates; those queued in one tick (here the two calls
    that follow the [await]) are applied in order and React commits the
    state reached after the last of them, so the component is rendered with
    that state only. *)
Definition flush (s : AppState) (us : list StateUpdate) : AppState :=
  fold_left apply_update us s.

(** The promise returned by [axios.get] either fulfils with a response or
    rejects with an error; the causes are those the library distinguishes.
    [data] is the body of the endpoint's answer, a scene payload of the shape
    [AsteroidSceneProps] declares (a JS object, hence truthy). *)
Module Axios.
Record response : Set := { data : SceneData; status : nat }.
Inductive error : Set :=
| NetworkError
| BadStatus (status : nat)
| BadResponse (message : string).
Definition settled : Set := response + error.
End Axios.

Definition scene_url : string := "/api/v1/viz/3d-scene".

(** The body of [fetchSceneData] after its [await]: the [try] branch on a
    fulfilled promise, the [catch] branch (which ignores [err]) on a
    rejected one. *)
Definition fetchSceneData_resume (r : Axios.settled) : list StateUpdate :=
  match r with
  | inl response => [setSceneData (Some (Axios.data response)); setLoading false]
  | inr err => [setError (Some "Failed to load asteroid data"); setLoading false]
  end.

(** [if (error)]: [null] and the empty string are falsy. *)
Definition truthy_error (e : option string) : option string :=
  match e with
  | Some msg => if String.eqb msg "" then None else Some msg
  | None => None
  end.

Definition loading_display : Element :=
  div "loading" [Text "Loading asteroid data..."].

Definition error_display (msg : string) : Element :=
  div "error" [Text msg].

Definition scene_display (sceneData : option SceneData) : Element :=
  div "app"
    [Canvas (0, 20, 20)%float 60%float
       [color "background" ["#000"];
        Stars 100%float 50%float 5000%float 4%float 0%float;
        OrbitControls true true true;
        ambientLight 0.5%float;
        pointLight (10, 10, 10)%float 1.5%float;
        match sceneData with
        | Some data => AsteroidScene data
        | None => Null
        end]].

Definition App (s : AppState) : Element :=
  if loading s then loading_display
  else match truthy_error (error s) with
       | Some msg => error_display msg
       | None => scene_display (sceneData s)
       end.

(** The three states of the fetch as the render function tells them apart. *)
Inductive Phase : Set := Loading | Ready | Failed.

Global Instance Phase_eq_dec : EqDecision Phase.
Proof. solve_decision. Defined.

Definition phase (s : AppState) : Phase :=
  if loading s then Loading
  else match truthy_error (error s) with
       | Some _ => Failed
       | None => Ready
       end.

(** ** The frame loop of [AsteroidScene] *)

(** [THREE.Euler], the [rotation] of the group object held by [groupRef]. *)
Module Euler.
Record t : Set := mk { x : number; y : number; z : number }.
End Euler.

(** The part of the fiber root state handed to a [useFrame] callback that
    carries time. *)
Record RootState : Set := { clock_elapsedTime : number; clock_delta : number }.

Definition rotation_increment : number := 0.001%float.

(** [if (groupRef.current) groupRef.current.rotation.y += 0.001]. *)
Definition useFrame_callback (state : RootState) (current : option Euler.t)
  : option Euler.t :=
  match current with
  | Some r =>
      Some (Euler.mk (Euler.x r) (Euler.y r + rotation_increment)%float (Euler.z r))
  | None => None
  end.

(** Whether a tree holds the group that is given [ref={groupRef}]. *)
Fixpoint has_groupRef (e : Element) : bool :=
  match e with
  | group _ r cs => r || existsb has_groupRef cs
  | ChildArray cs | div _ cs | Canvas _ _ cs | Sphere _ _ cs =>
      existsb has_groupRef cs
  | _ => false
  end.

(** ** The mounted component

    [requests] lists the GET requests issued so far, [pending] tells whether
    the promise of the one issued by the effect is still unsettled,
    [effect_ran] whether the effect with the empty dependency array has run,
    [groupRef] is [groupRef.current]: the rotation of the mounted group, or
    [None] while [AsteroidScene] is not mounted. *)

Record World : Set := {
  hooks : AppState;
  effect_ran : bool;
  requests : list string;
  pending : bool;
  groupRef : option Euler.t
}.

(** Committing a render: the effect runs after the first commit only (its
    dependency array is empty), and calls [fetchSceneData], which issues the
    request.  The ref is attached when the group is mounted, keeps its object
    across re-renders and is cleared when the group is not in the tree. *)
Definition commit (w : World) : World :=
  let tree := App (hooks w) in
  {| hooks := hooks w;
     effect_ran := true;
     requests := if effect_ran w then requests w else requests w ++ [scene_url];
     pending := if effect_ran w then pending w else true;
     groupRef := if has_groupRef tree
                 then Some (default (Euler.mk 0 0 0)%float (groupRef w))
                 else None |}.

Definition mount : World :=
  commit {| hooks := App_initial; effect_ran := false; requests := [];
            pending := false; groupRef := None |}.

Inductive Event : Set :=
| Settle (r : Axios.settled)   (* the promise of [axios.get] settles *)
| Rerender                     (* React renders the component again *)
| Frame (state : RootState).   (* the render loop runs the frame callbacks *)

(** A promise settles at most once; the state updates of the continuation
    are flushed together and committed. *)
Definition step (w : World) (ev : Event) : World :=
  match ev with
  | Settle r =>
      if pending w then
        commit {| hooks := flush (hooks w) (fetchSceneData_resume r);
                  effect_ran := effect_ran w;
                  requests := requests w;
                  pending := false;
                  groupRef := groupRef w |}
      else w
  | Rerender => commit w
  | Frame state =>
      {| hooks := hooks w;
         effect_ran := effect_ran w;
         requests := requests w;
         pending := pending w;
         groupRef := useFrame_callback state (groupRef w) |}
  end.

Definition run (w : World) (evs : list Event) : World := fold_left step evs w.

Definition is_settle (ev : Event) : bool :=
  match ev with Settle _ => true | _ => false end.

Definition is_frame (ev : Event) : bool :=
  match ev with Frame _ => true | _ => false end.

Definition count_frames (evs : list Event) : nat :=
  length (List.filter is_frame evs).

(** The phases shown along a run, starting with the one of [w]. *)
Fixpoint phases_along (w : World) (evs : list Event) : list Phase :=
  phase (hooks w) ::
  match evs with
  | [] => []
  | ev :: evs' => phases_along (step w ev) evs'
  end.

(** Number of places where two consecutive phases differ. *)
Fixpoint phase_changes (ps : list Phase) : nat :=
  match ps with
  | p :: (q :: _) as rest =>
      (if decide (p = q) then 0 else 1) + phase_changes rest
  | _ => 0
  end.

(** [k] successive additions of the increment, as the frame loop does. *)
Definition accumulate (k : nat) (r0 : number) : number :=
  Nat.iter k (fun r => (r + rotation_increment)%float) r0.

Definition number_of_nat (k : nat) : number :=
  PrimFloat.of_uint63 (Uint63.of_Z (Z.of_nat k)).

(** Two records that agree on everything the renderer may use for geometry:
    all fields but [name]. *)
Definition same_but_name (a b : Asteroid.t) : Prop :=
  Asteroid.id a = Asteroid.id b ∧
  Asteroid.position a = Asteroid.position b ∧
  Asteroid.size a = Asteroid.size b ∧
  Asteroid.orbit a = Asteroid.orbit b.

(** The state committed once the promise has settled with [r]. *)
Definition settled_state (r : Axios.settled) : AppState :=
  flush App_initial (fetchSceneData_resume r).

(** What holds of every world reached from [mount]. *)
Definition world_inv (w : World) : Prop :=
  effect_ran w = true ∧ requests w = [scene_url] ∧
  if pending w
  then hooks w = App_initial ∧ groupRef w = None
  else ∃ r, hooks w = settled_state r.


(** React matches the items of a child array across renders by their keys:
    it records the mounted items in a map from key to item
    ([existingChildren.set(key, child)], in order) and looks the key of each
    new item up in it. *)
Definition keyed_children_from (m : gmap string Element) (items : list Element)
  : gmap string Element :=
  fold_left (fun m e =>
               match element_key e with
               | Some k => <[k := e]> m
               | None => m
               end) items m.

Definition keyed_children (items : list Element) : gmap string Element :=
  keyed_children_from ∅ items.

(** The cells after the continuation of [fetchSceneData] has run once for
    each of the settlements [rs], in that order (the function is called once
    per run of the effect). *)
Definition settle_all (rs : list Axios.settled) : AppState :=
  fold_left (fun s r => flush s (fetchSceneData_resume r)) rs App_initial.

(** The mounted component while the scene is shown, [k] frames after the
    payload arrived. *)
Definition ready_world (response : Axios.response) (k : nat) : World :=
  {| hooks := {| sceneData := Some (Axios.data response); loading := false;
                 error := None |};
     effect_ran := true;
     requests := [scene_url];
     pending := false;
     groupRef := Some (Euler.mk 0%float (accumulate k 0%float) 0%float) |}.

(** The mounted component after the fetch has failed. *)
Definition failed_world : World :=
  {| hooks := {| sceneData := None; loading := false;
                 error := Some "Failed to load asteroid data" |};
     effect_ran := true;
     requests := [scene_url];
     pending := false;
     groupRef := None |}.

(** * Properties of [AsteroidScene] *)

Section Scene.
Implicit Types (data : SceneData) (a : Asteroid.t) (l : list Asteroid.t).

Lemma spheres_asteroid_groups l :
  flat_map spheres (asteroid_group <$> l) = asteroid_sphere <$> l.
Proof. induction l as [|a l IH]; [done|]. cbn. by rewrite IH. Qed.

Lemma lines_asteroid_groups l :
  flat_map lines (asteroid_group <$> l) = asteroid_line <$> l.
Proof. induction l as [|a l IH]; [done|]. cbn. by rewrite IH. Qed.

Lemma spheres_AsteroidScene data :
  spheres (AsteroidScene data) = sun :: (asteroid_sphere <$> asteroids data).
Proof.
  unfold AsteroidScene. cbn.
  by rewrite spheres_asteroid_groups, app_nil_r.
Qed.

Lemma lines_AsteroidScene data :
  lines (AsteroidScene data) = asteroid_line <$> asteroids data.
Proof.
  unfold AsteroidScene. cbn.
  by rewrite lines_asteroid_groups, app_nil_r.
Qed.

Lemma asteroid_items_AsteroidScene data :
  asteroid_items (AsteroidScene data) = asteroid_group <$> asteroids data.
Proof. reflexivity. Qed.

Lemma asteroid_items_lookup data i a :
  asteroids data !! i = Some a →
  asteroid_items (AsteroidScene data) !! i = Some (asteroid_group a).
Proof.
  intros Hi. rewrite asteroid_items_AsteroidScene, list_lookup_fmap.
  by rewrite Hi.
Qed.
End Scene.

(** * Properties of the mounted [App] *)

Section Machine.
Implicit Types (w : World) (ev : Event) (evs : list Event)
  (r : Axios.settled) (s : AppState).

Lemma mount_unfold :
  mount = {| hooks := App_initial; effect_ran := true;
             requests := [scene_url]; pending := true; groupRef := None |}.
Proof. reflexivity. Qed.

Lemma run_app w evs1 evs2 : run w (evs1 ++ evs2) = run (run w evs1) evs2.
Proof. apply fold_left_app. Qed.

Lemma run_cons w ev evs : run w (ev :: evs) = run (step w ev) evs.
Proof. reflexivity. Qed.

Lemma settled_state_loading r : loading (settled_state r) = false.
Proof. by destruct r. Qed.

Lemma settled_state_phase r :
  phase (settled_state r) = match r with inl _ => Ready | inr _ => Failed end.
Proof. by destruct r. Qed.

Lemma has_groupRef_loading s : loading s = true → has_groupRef (App s) = false.
Proof. unfold App. by intros ->. Qed.

Lemma mount_inv : world_inv mount.
Proof. rewrite mount_unfold. by repeat split. Qed.

Lemma step_inv w ev : world_inv w → world_inv (step w ev).
Proof.
  intros (Hran & Hreq & Hp). destruct ev as [r| |st]; cbn.
  - destruct (pending w) eqn:Ep.
    + destruct Hp as [Hh _]. unfold world_inv; cbn. rewrite Hran, Hreq, Hh.
      repeat split; eauto.
    + unfold world_inv. by rewrite Ep.
  - unfold world_inv; cbn. rewrite Hran. repeat split; [done|].
    destruct (pending w) eqn:Ep; [|done].
    destruct Hp as [Hh Hg]. split; [done|].
    rewrite has_groupRef_loading; [done|by rewrite Hh].
  - unfold world_inv; cbn. repeat split; [done..|].
    destruct (pending w); [|done].
    destruct Hp as [Hh Hg]. by rewrite Hg.
Qed.

Lemma run_inv w evs : world_inv w → world_inv (run w evs).
Proof.
  revert w. induction evs as [|ev evs IH]; intros w Hw; [done|].
  rewrite run_cons. by apply IH, step_inv.
Qed.

(** Once the promise has settled, no event changes the three cells. *)
Lemma step_settled w ev :
  effect_ran w = true → pending w = false →
  hooks (step w ev) = hooks w ∧ pending (step w ev) = false ∧
  effect_ran (step w ev) = true.
Proof.
  intros Hran Hp. destruct ev as [r| |st]; cbn; rewrite ?Hp, ?Hran; done.
Qed.

Lemma run_settled w evs :
  effect_ran w = true → pending w = false →
  hooks (run w evs) = hooks w ∧ pending (run w evs) = false ∧
  effect_ran (run w evs) = true.
Proof.
  revert w. induction evs as [|ev evs IH]; intros w Hran Hp; [done|].
  rewrite run_cons. destruct (step_settled w ev Hran Hp) as (Hh & Hp' & Hran').
  destruct (IH _ Hran' Hp') as (Hh' & ? & ?). split; [congruence|done].
Qed.

(** Until it settles, the cells keep their initial values. *)
Lemma step_unsettled w ev :
  effect_ran w = true → pending w = true → is_settle ev = false →
  hooks (step w ev) = hooks w ∧ pending (step w ev) = true ∧
  effect_ran (step w ev) = true.
Proof.
  intros Hran Hp Hev. destruct ev as [r| |st]; cbn; [done|..].
  - by rewrite Hran.
  - done.
Qed.

Lemma run_unsettled w evs :
  effect_ran w = true → pending w = true → existsb is_settle evs = false →
  hooks (run w evs) = hooks w ∧ pending (run w evs) = true ∧
  effect_ran (run w evs) = true.
Proof.
  revert w. induction evs as [|ev evs IH]; intros w Hran Hp Hevs; [done|].
  cbn in Hevs. apply orb_false_iff in Hevs as [Hev Hevs].
  rewrite run_cons.
  destruct (step_unsettled w ev Hran Hp Hev) as (Hh & Hp' & Hran').
  destruct (IH _ Hran' Hp' Hevs) as (Hh' & ? & ?).
  split; [congruence|done].
Qed.

Lemma step_settle w r :
  effect_ran w = true → pending w = true →
  hooks (step w (Settle r)) = flush (hooks w) (fetchSceneData_resume r) ∧
  pending (step w (Settle r)) = false ∧
  effect_ran (step w (Settle r)) = true.
Proof. intros Hran Hp. cbn. rewrite Hp. cbn. by rewrite Hran. Qed.

(** The run that starts with the settlement [r]: the cells are those of
    [settled_state r] whatever follows. *)
Lemma hooks_after_settle r evs :
  hooks (run mount (Settle r :: evs)) = settled_state r.
Proof.
  rewrite run_cons.
  destruct (step_settle mount r eq_refl eq_refl) as (Hh & Hp & Hran).
  destruct (run_settled _ evs Hran Hp) as (-> & _). by rewrite Hh.
Qed.

Lemma App_fulfilled (response : Axios.response) :
  App (settled_state (inl response)) =
  scene_display (Some (Axios.data response)).
Proof. reflexivity. Qed.

Lemma App_rejected (err : Axios.error) :
  App (settled_state (inr err)) = error_display "Failed to load asteroid data".
Proof. reflexivity. Qed.

Lemma spheres_scene_display (data : SceneData) :
  spheres (scene_display (Some data)) = spheres (AsteroidScene data).
Proof.
  change (spheres (scene_display (Some data)))
    with ((spheres (AsteroidScene data) ++ []) ++ []).
  by rewrite !app_nil_r.
Qed.

Lemma lines_scene_display (data : SceneData) :
  lines (scene_display (Some data)) = lines (AsteroidScene data).
Proof.
  change (lines (scene_display (Some data)))
    with ((lines (AsteroidScene data) ++ []) ++ []).
  by rewrite !app_nil_r.
Qed.
End Machine.

(** * Phases along a run *)

Section Phases.
Implicit Types (w : World) (ev : Event) (evs : list Event) (p : Phase).

Lemma phases_along_settled w evs :
  effect_ran w = true → pending w = false →
  phases_along w evs = replicate (S (length evs)) (phase (hooks w)).
Proof.
  revert w. induction evs as [|ev evs IH]; intros w Hran Hp; [done|].
  destruct (step_settled w ev Hran Hp) as (Hh & Hp' & Hran').
  cbn [phases_along length]. rewrite (IH _ Hran' Hp'), Hh. done.
Qed.

Lemma phases_along_unsettled w evs rest :
  effect_ran w = true → pending w = true → existsb is_settle evs = false →
  phases_along w (evs ++ rest) =
  replicate (length evs) (phase (hooks w)) ++ phases_along (run w evs) rest.
Proof.
  revert w. induction evs as [|ev evs IH]; intros w Hran Hp Hevs; [done|].
  cbn in Hevs. apply orb_false_iff in Hevs as [Hev Hevs].
  destruct (step_unsettled w ev Hran Hp Hev) as (Hh & Hp' & Hran').
  rewrite run_cons. cbn [app phases_along length replicate].
  rewrite (IH _ Hran' Hp' Hevs), Hh. done.
Qed.

Lemma phase_changes_cons p q (rest : list Phase) :
  phase_changes (p :: q :: rest) =
  (if decide (p = q) then 0 else 1) + phase_changes (q :: rest).
Proof. reflexivity. Qed.

Lemma phase_changes_replicate n p : phase_changes (replicate n p) = 0.
Proof.
  induction n as [|[|n] IH]; [done..|].
  change (replicate (S (S n)) p) with (p :: p :: replicate n p).
  rewrite phase_changes_cons, decide_True by done. exact IH.
Qed.

Lemma phase_changes_two n m p q :
  phase_changes (replicate (S n) p ++ replicate (S m) q) =
  if decide (p = q) then 0 else 1.
Proof.
  induction n as [|n IH].
  - change (replicate 1 p ++ replicate (S m) q)
      with (p :: q :: replicate m q).
    rewrite phase_changes_cons.
    change (q :: replicate m q) with (replicate (S m) q).
    rewrite phase_changes_replicate. lia.
  - change (replicate (S (S n)) p ++ replicate (S m) q)
      with (p :: p :: (replicate n p ++ replicate (S m) q)).
    rewrite phase_changes_cons, decide_True by done. exact IH.
Qed.
Lemma phases_along_no_settle evs :
  existsb is_settle evs = false →
  phases_along mount evs = replicate (S (length evs)) Loading.
Proof.
  intros Hevs.
  destruct (run_unsettled mount evs eq_refl eq_refl Hevs) as (Hh & _).
  rewrite <- (app_nil_r evs) at 1.
  rewrite (phases_along_unsettled mount evs [] eq_refl eq_refl Hevs).
  cbn [phases_along]. rewrite Hh. by rewrite replicate_S_end.
Qed.

Lemma phases_along_first_settle evs1 (r : Axios.settled) evs2 :
  existsb is_settle evs1 = false →
  phases_along mount (evs1 ++ Settle r :: evs2) =
  replicate (S (length evs1)) Loading ++
  replicate (S (length evs2)) (match r with inl _ => Ready | inr _ => Failed end).
Proof.
  intros Hevs1.
  destruct (run_unsettled mount evs1 eq_refl eq_refl Hevs1) as (Hh & Hp & Hran).
  destruct (step_settle _ r Hran Hp) as (Hh' & Hp' & Hran').
  rewrite (phases_along_unsettled mount evs1 _ eq_refl eq_refl Hevs1).
  cbn [phases_along]. rewrite (phases_along_settled _ evs2 Hran' Hp').
  rewrite Hh', Hh.
  change (flush (hooks mount) (fetchSceneData_resume r)) with (settled_state r).
  rewrite settled_state_phase, (replicate_S_end (length evs1)), <- app_assoc.
  reflexivity.
Qed.
End Phases.

(** * The group's rotation along a run *)

Section Rotation.
Implicit Types (w : World) (ev : Event) (evs : list Event) (rot : Euler.t).

Lemma accumulate_shift k (r : number) :
  accumulate k (r + rotation_increment)%float = accumulate (S k) r.
Proof. unfold accumulate. by rewrite Nat.iter_succ_r. Qed.

Lemma has_groupRef_fulfilled (response : Axios.response) :
  has_groupRef (App (settled_state (inl response))) = true.
Proof. reflexivity. Qed.

(** While the scene is shown, frames add the increment to [rotation.y] and
    nothing else touches the group. *)
Lemma groupRef_run_ready w evs (response : Axios.response) rot :
  hooks w = settled_state (inl response) →
  effect_ran w = true → pending w = false → groupRef w = Some rot →
  groupRef (run w evs) =
  Some (Euler.mk (Euler.x rot)
                 (accumulate (count_frames evs) (Euler.y rot))
                 (Euler.z rot)).
Proof.
  revert w rot.
  induction evs as [|ev evs IH]; intros w rot Hh Hran Hp Hg.
  { by destruct rot. }
  destruct (step_settled w ev Hran Hp) as (Hh' & Hp' & Hran').
  rewrite run_cons. destruct ev as [r| |st].
  - change (count_frames (Settle r :: evs)) with (count_frames evs).
    apply IH; [congruence|done|done|]. cbn. by rewrite Hp.
  - change (count_frames (Rerender :: evs)) with (count_frames evs).
    apply IH; [congruence|done|done|]. cbn.
    by rewrite Hh, has_groupRef_fulfilled, Hg.
  - change (count_frames (Frame st :: evs)) with (S (count_frames evs)).
    rewrite <- accumulate_shift.
    rewrite (IH (step w (Frame st))
               (Euler.mk (Euler.x rot) (Euler.y rot + rotation_increment)%float
                         (Euler.z rot))); [done|congruence|done|done|].
    cbn. by rewrite Hg.
Qed.

Lemma groupRef_after_fulfilled (response : Axios.response) evs :
  groupRef (run mount (Settle (inl response) :: evs)) =
  Some (Euler.mk 0%float (accumulate (count_frames evs) 0%float) 0%float).
Proof.
  rewrite run_cons.
  destruct (step_settle mount (inl response) eq_refl eq_refl) as (Hh & Hp & Hran).
  by rewrite (groupRef_run_ready _ evs response (Euler.mk 0 0 0)%float).
Qed.
End Rotation.

(** * Keys of the rendered items *)

Section Keys.
Implicit Types (a : Asteroid.t) (l : list Asteroid.t)
  (m : gmap string Element).

Lemma keys_asteroid_groups l :
  element_key <$> (asteroid_group <$> l) = Some <$> (Asteroid.id <$> l).
Proof. induction l as [|a l IH]; [done|]. cbn. by rewrite IH. Qed.

Lemma keyed_children_from_cons m a l :
  keyed_children_from m (asteroid_group <$> a :: l) =
  keyed_children_from (<[Asteroid.id a := asteroid_group a]> m)
    (asteroid_group <$> l).
Proof. reflexivity. Qed.

Lemma keyed_children_from_other m l k :
  k ∉ Asteroid.id <$> l →
  keyed_children_from m (asteroid_group <$> l) !! k = m !! k.
Proof.
  revert m. induction l as [|a l IH]; intros m Hk; [done|].
  rewrite fmap_cons in Hk. apply not_elem_of_cons in Hk as [Hne Hk].
  rewrite keyed_children_from_cons, (IH _ Hk). by rewrite lookup_insert_ne.
Qed.

Lemma keyed_children_from_lookup m l i a :
  NoDup (Asteroid.id <$> l) → l !! i = Some a →
  keyed_children_from m (asteroid_group <$> l) !! Asteroid.id a =
  Some (asteroid_group a).
Proof.
  revert m i. induction l as [|b l IH]; intros m i Hnd Hi; [done|].
  rewrite fmap_cons in Hnd. apply NoDup_cons in Hnd as [Hb Hnd].
  rewrite keyed_children_from_cons. destruct i as [|i]; cbn in Hi.
  - injection Hi as ->.
    rewrite (keyed_children_from_other _ _ _ Hb). by rewrite lookup_insert_eq.
  - by apply (IH _ i).
Qed.
(** Without unique ids the association breaks: two records with one id
    share a key, and the lookup finds the item of the later one only. *)
Example keyed_children_repeated_id :
  let a := Asteroid.mk "1" "first" (1, 0, 0)%float 1%float [] in
  let b := Asteroid.mk "1" "second" (2, 0, 0)%float 2%float [] in
  keyed_children (asteroid_group <$> [a; b]) !! "1" = Some (asteroid_group b) ∧
  size (keyed_children (asteroid_group <$> [a; b])) = 1.
Proof. split; vm_compute; reflexivity. Qed.
End Keys.

(** * The claims of the specification *)

(** C1.  After a payload with N asteroid records has been retrieved, the
    rendered tree holds exactly N+1 sphere meshes and exactly N polylines;
    for the payload with no asteroids it holds the central body alone, no
    polyline, and is not the error display. *)
Theorem C1_sphere_and_polyline_count (response : Axios.response) :
  let data := Axios.data response in
  let tree := App (hooks (run mount [Settle (inl response)])) in
  tree = scene_display (Some data) ∧
  spheres tree = sun :: (asteroid_sphere <$> asteroids data) ∧
  lines tree = asteroid_line <$> asteroids data ∧
  length (spheres tree) = S (length (asteroids data)) ∧
  length (lines tree) = length (asteroids data) ∧
  ∀ status,
    let empty := {| Axios.data := {| asteroids := [] |}; Axios.status := status |} in
    let tree0 := App (hooks (run mount [Settle (inl empty)])) in
    spheres tree0 = [sun] ∧ lines tree0 = [] ∧
    ∀ msg, tree0 ≠ error_display msg.
Proof.
  intros data tree. subst tree.
  rewrite hooks_after_settle, App_fulfilled.
  rewrite spheres_scene_display, lines_scene_display.
  rewrite spheres_AsteroidScene, lines_AsteroidScene. cbn [length].
  rewrite !length_fmap. repeat split; try done.
Qed.

(** C2.  The sphere rendered for an asteroid record has the record's [size]
    as its radius and the record's [position] as its position, unchanged. *)
Theorem C2_sphere_radius_and_position
    (data : SceneData) (i : nat) (a : Asteroid.t) :
  asteroids data !! i = Some a →
  ∃ g s, asteroid_items (AsteroidScene data) !! i = Some g ∧
         element_key g = Some (Asteroid.id a) ∧
         spheres g = [s] ∧
         spheres (AsteroidScene data) !! S i = Some s ∧
         sphere_radius s = Some (Asteroid.size a) ∧
         sphere_position s = Some (Asteroid.position a).
Proof.
  intros Hi. exists (asteroid_group a), (asteroid_sphere a).
  split; [by apply asteroid_items_lookup|].
  rewrite spheres_AsteroidScene. repeat split.
  rewrite lookup_cons. by rewrite list_lookup_fmap, Hi.
Qed.

Lemma C2_sphere_radius_and_position_witness :
  let a := Asteroid.mk "2021 AB" "Apophis" (3, 0.5, -2)%float 0.25%float
             [(3, 0.5, -2); (0, 0.5, 4)]%float in
  let data := {| asteroids := [Asteroid.mk "433" "Eros" (1, 0, 0)%float 2%float []; a] |} in
  asteroids data !! 1 = Some a ∧
  ∃ g s, asteroid_items (AsteroidScene data) !! 1 = Some g ∧
         element_key g = Some "2021 AB" ∧
         spheres g = [s] ∧
         spheres (AsteroidScene data) !! 2 = Some s ∧
         sphere_radius s = Some 0.25%float ∧
         sphere_position s = Some (3, 0.5, -2)%float.
Proof.
  intros a data. split; [reflexivity|].
  apply (C2_sphere_radius_and_position data 1 a). reflexivity.
Defined.

(** C3.  For an asteroid record whose orbit has at least two points, the
    points handed to the line primitive are the record's orbit list itself:
    same points, same order. *)
Theorem C3_polyline_follows_orbit
    (data : SceneData) (i : nat) (a : Asteroid.t) :
  asteroids data !! i = Some a →
  2 ≤ length (Asteroid.orbit a) →
  ∃ g ln, asteroid_items (AsteroidScene data) !! i = Some g ∧
          lines g = [ln] ∧
          lines (AsteroidScene data) !! i = Some ln ∧
          line_points ln = Some (Asteroid.orbit a).
Proof.
  intros Hi _. exists (asteroid_group a), (asteroid_line a).
  split; [by apply asteroid_items_lookup|].
  rewrite lines_AsteroidScene. repeat split.
  by rewrite list_lookup_fmap, Hi.
Qed.

Lemma C3_polyline_follows_orbit_witness :
  let orbit := [(2, 0, 0); (0, 0, 2); (-2, 0, 0); (0, 0, -2)]%float in
  let a := Asteroid.mk "433" "Eros" (2, 0, 0)%float 0.5%float orbit in
  let data := {| asteroids := [a] |} in
  asteroids data !! 0 = Some a ∧
  2 ≤ length (Asteroid.orbit a) ∧
  ∃ g ln, asteroid_items (AsteroidScene data) !! 0 = Some g ∧
          lines g = [ln] ∧
          lines (AsteroidScene data) !! 0 = Some ln ∧
          line_points ln = Some orbit.
Proof.
  intros orbit a data. split; [reflexivity|]. split; [cbn; lia|].
  apply (C3_polyline_follows_orbit data 0 a); [reflexivity|cbn; lia].
Defined.

(** C6.  Whatever payload has been retrieved and whatever happens
    afterwards, the rendered tree starts with the central body: a sphere of
    radius 1 at the origin with a fixed material, none of which is taken
    from the payload. *)
Theorem C6_central_body_fixed (response : Axios.response) (evs : list Event) :
  let data := Axios.data response in
  let tree := App (hooks (run mount (Settle (inl response) :: evs))) in
  (∃ rest, tree = scene_display (Some data) ∧
           AsteroidScene data = group None true (sun :: rest)) ∧
  head (spheres tree) = Some sun ∧
  sphere_radius sun = Some 1%float ∧
  sphere_position sun = Some (0, 0, 0)%float ∧
  sphere_material sun =
    [meshStandardMaterial "yellow" (Some "yellow") (Some 0.6%float) None None].
Proof.
  intros data tree. subst tree.
  rewrite hooks_after_settle, App_fulfilled. split; [by eexists|].
  by rewrite spheres_scene_display, spheres_AsteroidScene.
Qed.

(** C9.  Two payloads whose records differ in their [name] fields only are
    rendered to the same tree: the name reaches no mesh, transform,
    material or polyline. *)
Theorem C9_name_has_no_influence (l1 l2 : list Asteroid.t) :
  Forall2 same_but_name l1 l2 →
  AsteroidScene {| asteroids := l1 |} = AsteroidScene {| asteroids := l2 |} ∧
  scene_display (Some {| asteroids := l1 |}) =
  scene_display (Some {| asteroids := l2 |}).
Proof.
  intros H.
  assert (asteroid_group <$> l1 = asteroid_group <$> l2) as Heq.
  { induction H as [|a b l1 l2 (Hid & Hpos & Hsize & Horb) _ IH]; [done|].
    cbn. rewrite IH. f_equal.
    unfold asteroid_group, asteroid_sphere, asteroid_line.
    by rewrite Hid, Hpos, Hsize, Horb. }
  unfold scene_display, AsteroidScene. cbn. by rewrite Heq.
Qed.

Lemma C9_name_has_no_influence_witness :
  let l1 := [Asteroid.mk "433" "Eros" (2, 0, 1)%float 0.5%float
               [(2, 0, 1); (0, 0, 3)]%float] in
  let l2 := [Asteroid.mk "433" "433 Eros (A898 PA)" (2, 0, 1)%float 0.5%float
               [(2, 0, 1); (0, 0, 3)]%float] in
  Forall2 same_but_name l1 l2 ∧
  AsteroidScene {| asteroids := l1 |} = AsteroidScene {| asteroids := l2 |} ∧
  scene_display (Some {| asteroids := l1 |}) =
  scene_display (Some {| asteroids := l2 |}).
Proof.
  intros l1 l2.
  assert (Forall2 same_but_name l1 l2) as H.
  { repeat constructor. }
  split; [exact H|]. apply (C9_name_has_no_influence l1 l2 H).
Defined.

(** C4.  In a run of the mounted component, up to the first settlement of
    the fetch the phase is [Loading], the cells are the initial ones and the
    loading placeholder is shown; at that settlement the phase becomes
    [Ready] (fulfilled: the payload of the response is held and its scene is
    rendered) or [Failed] (rejected: no payload, the error message is held
    and shown) and stays so under every later event: the phase changes
    exactly once, and one request is issued in all. *)
Theorem C4_fetch_settles_once
    (evs1 : list Event) (r : Axios.settled) (evs2 : list Event) :
  existsb is_settle evs1 = false →
  let final := match r with inl _ => Ready | inr _ => Failed end in
  let evs := evs1 ++ Settle r :: evs2 in
  requests (run mount evs1) = [scene_url] ∧
  requests (run mount evs) = [scene_url] ∧
  phases_along mount evs1 = replicate (S (length evs1)) Loading ∧
  phases_along mount evs =
    replicate (S (length evs1)) Loading ++ replicate (S (length evs2)) final ∧
  phase_changes (phases_along mount evs1) = 0 ∧
  phase_changes (phases_along mount evs) = 1 ∧
  hooks (run mount evs1) = App_initial ∧
  App (hooks (run mount evs1)) = loading_display ∧
  hooks (run mount evs) =
    match r with
    | inl response =>
        {| sceneData := Some (Axios.data response); loading := false;
           error := None |}
    | inr _ =>
        {| sceneData := None; loading := false;
           error := Some "Failed to load asteroid data" |}
    end ∧
  App (hooks (run mount evs)) =
    match r with
    | inl response => scene_display (Some (Axios.data response))
    | inr _ => error_display "Failed to load asteroid data"
    end ∧
  spheres (App (hooks (run mount evs))) =
    match r with
    | inl response =>
        sun :: (asteroid_sphere <$> asteroids (Axios.data response))
    | inr _ => []
    end.
Proof.
  intros Hevs1 final evs.
  pose proof (phases_along_no_settle evs1 Hevs1) as H1.
  pose proof (phases_along_first_settle evs1 r evs2 Hevs1) as H2.
  destruct (run_unsettled mount evs1 eq_refl eq_refl Hevs1) as (Hh & Hp & Hran).
  destruct (step_settle _ r Hran Hp) as (Hh' & Hp' & Hran').
  destruct (run_settled _ evs2 Hran' Hp') as (Hh'' & _).
  assert (hooks (run mount evs) = settled_state r) as Hfinal.
  { unfold evs. by rewrite run_app, run_cons, Hh'', Hh', Hh. }
  split; [apply (run_inv mount evs1 mount_inv)|].
  split; [apply (run_inv mount evs mount_inv)|].
  split; [exact H1|]. split; [exact H2|]. fold evs in H2.
  rewrite H1, H2, phase_changes_replicate, phase_changes_two, Hh, Hfinal.
  split; [done|]. split; [by destruct r|].
  split; [done|]. split; [done|].
  destruct r as [response|err]; [|done].
  rewrite App_fulfilled, spheres_scene_display, spheres_AsteroidScene. done.
Qed.

Lemma C4_fetch_settles_once_witness :
  let st := {| clock_elapsedTime := 0.5%float; clock_delta := 0.016%float |} in
  let eros := Asteroid.mk "433" "Eros" (2, 0, 1)%float 0.5%float
                [(2, 0, 1); (0, 0, 3)]%float in
  let response :=
    {| Axios.data := {| asteroids := [eros] |}; Axios.status := 200 |} in
  let evs1 := [Rerender; Frame st] in
  let evs2 := [Frame st; Settle (inr Axios.NetworkError); Rerender] in
  let evs := evs1 ++ Settle (inl response) :: evs2 in
  existsb is_settle evs1 = false ∧
  phases_along mount evs =
    [Loading; Loading; Loading; Ready; Ready; Ready; Ready] ∧
  phase_changes (phases_along mount evs) = 1 ∧
  requests (run mount evs) = [scene_url] ∧
  sceneData (hooks (run mount evs)) = Some {| asteroids := [eros] |} ∧
  App (hooks (run mount evs)) = scene_display (Some {| asteroids := [eros] |}) ∧
  spheres (App (hooks (run mount evs))) = [sun; asteroid_sphere eros].
Proof.
  intros st eros response evs1 evs2 evs.
  pose proof (C4_fetch_settles_once evs1 (inl response) evs2 eq_refl)
    as (_ & Hreq & _ & Hphases & _ & Hchanges & _ & _ & Hhooks & Htree & Hs).
  split; [reflexivity|]. split; [exact Hphases|]. split; [exact Hchanges|].
  split; [exact Hreq|]. split; [exact (f_equal sceneData Hhooks)|].
  split; [exact Htree|exact Hs].
Defined.

(** C5.  Whatever makes the fetch fail, the display goes from the loading
    placeholder straight to the one fixed error message, which holds no
    sphere and no polyline; it stays the loading placeholder after each
    proper prefix of the updates the failure handler issues. *)
Theorem C5_failure_shows_generic_error
    (evs1 : list Event) (err : Axios.error) (evs2 : list Event) :
  existsb is_settle evs1 = false →
  let updates := fetchSceneData_resume (inr err) in
  let tree := App (hooks (run mount (evs1 ++ Settle (inr err) :: evs2))) in
  App (hooks (run mount evs1)) = loading_display ∧
  tree = error_display "Failed to load asteroid data" ∧
  spheres tree = [] ∧ lines tree = [] ∧
  length updates = 2 ∧
  App (flush App_initial (take 0 updates)) = loading_display ∧
  App (flush App_initial (take 1 updates)) = loading_display ∧
  phases_along mount (evs1 ++ Settle (inr err) :: evs2) =
    replicate (S (length evs1)) Loading ++ replicate (S (length evs2)) Failed.
Proof.
  intros Hevs1 updates tree.
  destruct (run_unsettled mount evs1 eq_refl eq_refl Hevs1) as (Hh & Hp & Hran).
  destruct (step_settle _ (inr err) Hran Hp) as (Hh' & Hp' & Hran').
  destruct (run_settled _ evs2 Hran' Hp') as (Hh'' & _).
  assert (tree = error_display "Failed to load asteroid data") as ->.
  { unfold tree. rewrite run_app, run_cons, Hh'', Hh', Hh. reflexivity. }
  rewrite Hh. repeat split.
  apply (phases_along_first_settle evs1 (inr err) evs2 Hevs1).
Qed.

Lemma C5_failure_shows_generic_error_witness :
  let st := {| clock_elapsedTime := 1.5%float; clock_delta := 0.5%float |} in
  let evs1 := [Frame st; Rerender] in
  let evs2 := [Rerender; Frame st] in
  let tree :=
    App (hooks (run mount (evs1 ++ Settle (inr (Axios.BadStatus 503)) :: evs2))) in
  existsb is_settle evs1 = false ∧
  App (hooks (run mount evs1)) = loading_display ∧
  tree = div "error" [Text "Failed to load asteroid data"] ∧
  spheres tree = [] ∧ lines tree = [].
Proof.
  intros st evs1 evs2 tree.
  pose proof (C5_failure_shows_generic_error evs1 (Axios.BadStatus 503) evs2
                eq_refl) as (Hbefore & Htree & Hs & Hl & _).
  split; [reflexivity|]. split; [exact Hbefore|]. split; [exact Htree|].
  split; [exact Hs|exact Hl].
Defined.

(** C7, as stated, fails on the code: JS numbers are binary64 values, and
    ten additions of 0.001 give 0.010000000000000002, which is not the
    product of 10 and 0.001. *)
Lemma C7_ten_frames_differ_from_product :
  let st := {| clock_elapsedTime := 0%float; clock_delta := 0%float |} in
  let response :=
    {| Axios.data := {| asteroids := [] |}; Axios.status := 200 |} in
  Euler.y <$> groupRef (run mount (Settle (inl response) :: replicate 10 (Frame st)))
  ≠ Some (number_of_nat 10 * rotation_increment)%float.
Proof.
  intros st response H.
  apply (f_equal (fun o => match o with
                           | Some v => PrimFloat.eqb v 0.01%float
                           | None => false
                           end)) in H.
  vm_compute in H. discriminate H.
Qed.

(** C7, amended.  After a payload has been retrieved, the group's rotation
    is (0, s, 0) where s is the result of adding the increment 0.001 to 0
    once per frame run since, in binary64 arithmetic: it depends on the
    number of frames only, not on the payload, on the clock values the
    callback receives or on re-renders in between.  For up to nine frames s
    is exactly the product of the frame count and the increment. *)
Theorem C7_rotation_accumulates_per_frame
    (response : Axios.response) (evs : list Event) :
  let K := count_frames evs in
  groupRef (run mount (Settle (inl response) :: evs)) =
    Some (Euler.mk 0%float (accumulate K 0%float) 0%float) ∧
  accumulate (S K) 0%float = (accumulate K 0%float + 0.001)%float ∧
  Forall (fun k => accumulate k 0%float
                   = (number_of_nat k * rotation_increment)%float)
         (seq 0 10).
Proof.
  intros K. split; [apply groupRef_after_fulfilled|].
  split; [reflexivity|]. repeat constructor.
Qed.

(** C8.  With unique ids, rendering the retrieved payload again gives the
    same tree and keeps the mounted group: the item keys are the ids, free
    of collisions, the sphere count stays N+1, and the item React finds
    under the key of a record is the one rendered from that record. *)
Theorem C8_rerender_keyed_by_id
    (response : Axios.response) (evs : list Event) :
  let data := Axios.data response in
  NoDup (Asteroid.id <$> asteroids data) →
  let w := run mount (Settle (inl response) :: evs) in
  let w' := step w Rerender in
  let items := asteroid_items (AsteroidScene data) in
  App (hooks w') = App (hooks w) ∧
  App (hooks w') = scene_display (Some data) ∧
  groupRef w' = groupRef w ∧
  length (spheres (App (hooks w'))) = S (length (asteroids data)) ∧
  element_key <$> items = Some <$> (Asteroid.id <$> asteroids data) ∧
  NoDup (element_key <$> items) ∧
  ∀ i a, asteroids data !! i = Some a →
         items !! i = Some (asteroid_group a) ∧
         keyed_children items !! Asteroid.id a = Some (asteroid_group a).
Proof.
  intros data Hnd w w' items.
  assert (run w [Rerender] = w') as Hw' by reflexivity.
  assert (w' = run mount (Settle (inl response) :: evs ++ [Rerender])) as Hrun.
  { rewrite <- Hw'. unfold w. by rewrite app_comm_cons, run_app. }
  assert (hooks w = settled_state (inl response)) as Hh
    by apply hooks_after_settle.
  assert (hooks w' = settled_state (inl response)) as Hh'
    by (rewrite Hrun; apply hooks_after_settle).
  rewrite Hh', Hh, App_fulfilled. split; [done|]. split; [done|].
  split.
  { rewrite Hrun. unfold w. rewrite !groupRef_after_fulfilled.
    unfold count_frames. rewrite List.filter_app, length_app. cbn.
    by rewrite Nat.add_0_r. }
  split.
  { rewrite spheres_scene_display, spheres_AsteroidScene. cbn.
    by rewrite length_fmap. }
  unfold items. rewrite asteroid_items_AsteroidScene, keys_asteroid_groups.
  split; [done|]. split.
  { apply NoDup_fmap_2; [|done]. by intros ?? [= ->]. }
  intros i a Hi. split.
  - by rewrite list_lookup_fmap, Hi.
  - by apply (keyed_children_from_lookup ∅ _ i).
Qed.

Lemma C8_rerender_keyed_by_id_witness :
  let eros := Asteroid.mk "433" "Eros" (2, 0, 1)%float 0.5%float
                [(2, 0, 1); (0, 0, 3)]%float in
  let apophis := Asteroid.mk "99942" "Apophis" (-1, 0.25, 4)%float 0.125%float
                   [(-1, 0.25, 4); (1, 0.25, -4)]%float in
  let response :=
    {| Axios.data := {| asteroids := [eros; apophis] |}; Axios.status := 200 |} in
  let st := {| clock_elapsedTime := 0.25%float; clock_delta := 0.25%float |} in
  let w := run mount [Settle (inl response); Frame st] in
  NoDup (Asteroid.id <$> [eros; apophis]) ∧
  App (hooks (step w Rerender)) = App (hooks w) ∧
  groupRef (step w Rerender) = groupRef w ∧
  length (spheres (App (hooks (step w Rerender)))) = 3 ∧
  keyed_children (asteroid_items (AsteroidScene (Axios.data response))) !! "99942"
  = Some (asteroid_group apophis).
Proof.
  intros eros apophis response st w.
  assert (NoDup (Asteroid.id <$> [eros; apophis])) as Hnd.
  { vm_compute. compute_done. }
  pose proof (C8_rerender_keyed_by_id response [Frame st] Hnd)
    as (Htree & _ & Href & Hcount & _ & _ & Hkeys).
  split; [exact Hnd|]. split; [exact Htree|]. split; [exact Href|].
  split; [exact Hcount|]. exact (proj2 (Hkeys 1 apophis eq_refl)).
Defined.



(** * Further properties of the two components *)

Section Display.
Implicit Types (s : AppState) (r : Axios.settled).

Lemma spheres_scene_display_None : spheres (scene_display None) = [].
Proof. reflexivity. Qed.

Lemma lines_scene_display_None : lines (scene_display None) = [].
Proof. reflexivity. Qed.

(** X2.  Geometry is rendered in one case only: not loading, no non-empty error
    message, and a payload present.  In every other state the tree holds no
    sphere (not even the central body) and no polyline. *)
Theorem App_geometry_iff_ready_with_payload s :
  (spheres (App s) ≠ [] ↔
   loading s = false ∧ truthy_error (error s) = None ∧ is_Some (sceneData s)) ∧
  (spheres (App s) = [] ∨ head (spheres (App s)) = Some sun) ∧
  length (lines (App s)) = pred (length (spheres (App s))).
Proof.
  destruct s as [sd [|] e]; unfold App; cbn [loading error sceneData].
  { split_and!; [|by left|done]. split; [done|by intros ([=] & _)]. }
  destruct (truthy_error e) as [msg|].
  { split_and!; [|by left|done]. split; [done|by intros (_ & [=] & _)]. }
  destruct sd as [data|].
  - rewrite spheres_scene_display, lines_scene_display.
    rewrite spheres_AsteroidScene, lines_AsteroidScene. cbn [length head pred].
    rewrite !length_fmap. split_and!; [|by right|done].
    split; [by eauto|done].
  - rewrite spheres_scene_display_None, lines_scene_display_None.
    split_and!; [|by left|done]. split; [done|by intros (_ & _ & [? [=]])].
Qed.

(** X3.  The two updates of a continuation, rendered one at a time: the display
    stays the loading placeholder until both have been applied, so neither
    an empty canvas nor a stale tree is shown in between. *)
Theorem App_display_update_by_update r (n : nat) :
  App (flush App_initial (take n (fetchSceneData_resume r))) =
  if bool_decide (n < 2) then loading_display else App (settled_state r).
Proof. by destruct r, n as [|[|[|n]]]. Qed.

Lemma flush_resume_rejected s (err : Axios.error) :
  flush s (fetchSceneData_resume (inr err)) =
  {| sceneData := sceneData s; loading := false;
     error := Some "Failed to load asteroid data" |}.
Proof. reflexivity. Qed.

Lemma flush_resume_fulfilled s (response : Axios.response) :
  flush s (fetchSceneData_resume (inl response)) =
  {| sceneData := Some (Axios.data response); loading := false;
     error := error s |}.
Proof. reflexivity. Qed.

Lemma settle_all_snoc (rs : list Axios.settled) r :
  settle_all (rs ++ [r]) = flush (settle_all rs) (fetchSceneData_resume r).
Proof. unfold settle_all. by rewrite fold_left_app. Qed.

(** No continuation clears the error message or raises the loading flag. *)
Lemma fold_resume_keeps_error s (rs : list Axios.settled) :
  loading s = false → error s = Some "Failed to load asteroid data" →
  let s' := fold_left (fun s r => flush s (fetchSceneData_resume r)) rs s in
  loading s' = false ∧ error s' = Some "Failed to load asteroid data".
Proof.
  revert s. induction rs as [|r rs IH]; intros s Hl He; [done|].
  cbn [fold_left]. apply IH; by destruct r.
Qed.

Lemma settle_all_fulfilled_error (responses : list Axios.response) :
  error (settle_all (inl <$> responses)) = None.
Proof.
  induction responses as [|response responses IH] using rev_ind; [done|].
  rewrite fmap_app.
  change (inl <$> [response]) with [@inl _ Axios.error response].
  by rewrite settle_all_snoc, flush_resume_fulfilled.
Qed.

(** X4.  Several runs of the continuation on the same cells (the effect run more
    than once): as soon as one rejection is among the settlements, in any
    position, the error display is shown, even when payloads arrived before
    or after it; with fulfilled settlements only, the scene of the last
    payload is shown. *)
Theorem App_after_several_settlements
    (rs1 rs2 : list Axios.settled) (err : Axios.error)
    (responses : list Axios.response) (response : Axios.response) :
  App (settle_all (rs1 ++ inr err :: rs2)) =
    error_display "Failed to load asteroid data" ∧
  App (settle_all (inl <$> responses ++ [response])) =
    scene_display (Some (Axios.data response)).
Proof.
  split.
  - unfold settle_all. rewrite fold_left_app. cbn [fold_left].
    rewrite flush_resume_rejected.
    match goal with
    | |- App (fold_left _ rs2 ?s0) = _ =>
        destruct (fold_resume_keeps_error s0 rs2 eq_refl eq_refl) as [Hl He]
    end.
    unfold App. by rewrite Hl, He.
  - rewrite fmap_app.
    change (inl <$> [response]) with [@inl _ Axios.error response].
    rewrite settle_all_snoc, flush_resume_fulfilled.
    by rewrite settle_all_fulfilled_error.
Qed.
End Display.

Section Runs.
Implicit Types (w : World) (ev : Event) (evs : list Event)
  (r : Axios.settled) (response : Axios.response).

Lemma step_mount_quiet ev : is_settle ev = false → step mount ev = mount.
Proof. by destruct ev. Qed.

Lemma step_failed ev : step failed_world ev = failed_world.
Proof. by destruct ev. Qed.

Lemma run_failed evs : run failed_world evs = failed_world.
Proof.
  induction evs as [|ev evs IH]; [done|]. by rewrite run_cons, step_failed.
Qed.

Lemma step_ready response k ev :
  step (ready_world response k) ev =
  ready_world response (if is_frame ev then S k else k).
Proof. by destruct ev. Qed.

Lemma count_frames_cons ev evs :
  count_frames (ev :: evs) = (if is_frame ev then 1 else 0) + count_frames evs.
Proof. unfold count_frames. cbn. by destruct (is_frame ev). Qed.

Lemma run_ready response k evs :
  run (ready_world response k) evs =
  ready_world response (count_frames evs + k).
Proof.
  revert k. induction evs as [|ev evs IH]; intros k; [done|].
  rewrite run_cons, step_ready, IH, count_frames_cons.
  f_equal. destruct (is_frame ev); lia.
Qed.

Lemma step_mount_settle r :
  step mount (Settle r) =
  match r with
  | inl response => ready_world response 0
  | inr _ => failed_world
  end.
Proof. by destruct r. Qed.

(** Every run either has no settlement or splits at its first one. *)
Lemma split_first_settle evs :
  existsb is_settle evs = false ∨
  ∃ evs1 r evs2, evs = evs1 ++ Settle r :: evs2 ∧
                 existsb is_settle evs1 = false.
Proof.
  induction evs as [|ev evs IH]; [by left|].
  destruct ev as [r| |st].
  - right. by exists [], r, evs.
  - destruct IH as [IH|(evs1 & r & evs2 & -> & Hq)]; [by left|].
    right. by exists (Rerender :: evs1), r, evs2.
  - destruct IH as [IH|(evs1 & r & evs2 & -> & Hq)]; [by left|].
    right. by exists (Frame st :: evs1), r, evs2.
Qed.

Lemma run_quiet evs :
  existsb is_settle evs = false → run mount evs = mount.
Proof.
  induction evs as [|ev evs IH]; [done|]. cbn [existsb].
  intros [Hev Hevs]%orb_false_iff.
  by rewrite run_cons, step_mount_quiet, IH.
Qed.

Lemma run_split evs1 r evs2 :
  existsb is_settle evs1 = false →
  run mount (evs1 ++ Settle r :: evs2) =
  match r with
  | inl response => run (ready_world response 0) evs2
  | inr _ => run failed_world evs2
  end.
Proof.
  intros Hq. rewrite run_app, run_quiet, run_cons, step_mount_settle by done.
  by destruct r.
Qed.

(** X5.  Until the fetch settles nothing changes: re-renders do not run the
    effect again (no second request) and frames find [groupRef.current]
    null and do nothing, so the component is as it was right after mount,
    showing the loading placeholder. *)
Theorem run_before_settlement evs :
  existsb is_settle evs = false →
  run mount evs = mount ∧
  requests (run mount evs) = [scene_url] ∧
  groupRef (run mount evs) = None ∧
  App (hooks (run mount evs)) = loading_display.
Proof. intros Hq. by rewrite (run_quiet evs Hq). Qed.

Lemma run_before_settlement_witness :
  let st := {| clock_elapsedTime := 2%float; clock_delta := 0.5%float |} in
  let evs := [Frame st; Rerender; Frame st; Frame st] in
  existsb is_settle evs = false ∧ run mount evs = mount.
Proof.
  intros st evs. split; [reflexivity|].
  apply (proj1 (run_before_settlement evs eq_refl)).
Defined.

(** X6.  The first settlement decides the rest of the run.  After a
    rejection the component is [failed_world] for good: no ref, so frames
    rotate nothing, and no event brings the payload or another request.
    After a fulfilment it is [ready_world] with the rotation accumulated
    over the frames that came after the settlement; frames that ran while
    loading do not count. *)
Theorem run_from_first_settlement evs1 r evs2 :
  existsb is_settle evs1 = false →
  run mount (evs1 ++ Settle r :: evs2) =
  match r with
  | inl response => ready_world response (count_frames evs2)
  | inr _ => failed_world
  end.
Proof.
  intros Hq. rewrite run_split by done. destruct r as [response|err].
  - by rewrite run_ready, Nat.add_0_r.
  - apply run_failed.
Qed.

Lemma run_from_first_settlement_witness :
  let st := {| clock_elapsedTime := 2%float; clock_delta := 0.5%float |} in
  let response :=
    {| Axios.data := {| asteroids := [] |}; Axios.status := 200 |} in
  let evs1 := [Frame st; Frame st; Rerender] in
  let evs2 := [Frame st; Settle (inr Axios.NetworkError); Frame st] in
  existsb is_settle evs1 = false ∧
  run mount (evs1 ++ Settle (inl response) :: evs2) = ready_world response 2 ∧
  run mount (evs1 ++ Settle (inr (Axios.BadStatus 500)) :: evs2) = failed_world.
Proof.
  intros st response evs1 evs2. split; [reflexivity|]. split.
  - apply (run_from_first_settlement evs1 (inl response) evs2). reflexivity.
  - apply (run_from_first_settlement evs1 (inr (Axios.BadStatus 500)) evs2).
    reflexivity.
Defined.

(** X7.  The component is always in one of three shapes: as mounted, ready
    with some payload and at most as many rotation steps as frames have
    run, or failed.  Hence the group object exists exactly while the scene
    is shown, the promise is pending exactly while the loading placeholder
    is shown, and the ref'd group is in the tree exactly when a payload is
    held. *)
Theorem reachable_worlds evs :
  let w := run mount evs in
  (w = mount ∨
   (∃ response k, k ≤ count_frames evs ∧ w = ready_world response k) ∨
   w = failed_world) ∧
  (is_Some (groupRef w) ↔ phase (hooks w) = Ready) ∧
  (pending w = true ↔ phase (hooks w) = Loading) ∧
  (has_groupRef (App (hooks w)) = true ↔ is_Some (sceneData (hooks w))).
Proof.
  intros w. subst w.
  destruct (split_first_settle evs) as [Hq|(evs1 & r & evs2 & -> & Hq)].
  - rewrite run_quiet by done. split; [by left|].
    split_and!; split; try done; try by intros [? [=]].
  - rewrite run_split by done. destruct r as [response|err].
    all: rewrite ?run_ready, ?run_failed, ?Nat.add_0_r.
    + split.
      { right; left. exists response, (count_frames evs2). split; [|done].
        unfold count_frames. rewrite List.filter_app, length_app. cbn. lia. }
      split_and!; split; done.
    + split; [by right; right|].
      split_and!; split; try done; try by intros [? [=]].
Qed.
End Runs.

Section SceneMore.
Implicit Types (a : Asteroid.t) (l : list Asteroid.t)
  (m : gmap string Element).

(** X8.  The tree keeps everything but the names: two payloads rendered to
    the same tree have the same number of records and agree, record by
    record, on id, position, size and orbit. *)
Theorem AsteroidScene_injective_up_to_name (d1 d2 : SceneData) :
  AsteroidScene d1 = AsteroidScene d2 →
  Forall2 same_but_name (asteroids d1) (asteroids d2).
Proof.
  destruct d1 as [l1], d2 as [l2]. intros [= H]. cbn.
  revert l2 H. induction l1 as [|a l1 IH]; intros [|b l2] H; try done.
  injection H as Hid Hsize Hpos Horb Hl. constructor; [done|by apply IH].
Qed.

Lemma AsteroidScene_injective_up_to_name_witness :
  let d1 := {| asteroids :=
    [Asteroid.mk "433" "Eros" (2, 0, 1)%float 0.5%float [(2, 0, 1)]%float] |} in
  let d2 := {| asteroids :=
    [Asteroid.mk "433" "(433) Eros" (2, 0, 1)%float 0.5%float [(2, 0, 1)]%float] |} in
  AsteroidScene d1 = AsteroidScene d2 ∧
  Forall2 same_but_name (asteroids d1) (asteroids d2).
Proof.
  intros d1 d2. split; [reflexivity|].
  apply (AsteroidScene_injective_up_to_name d1 d2). reflexivity.
Defined.

Lemma keyed_children_from_last m l k :
  keyed_children_from m (asteroid_group <$> l) !! k =
  match last (filter (fun a => Asteroid.id a = k) l) with
  | Some a => Some (asteroid_group a)
  | None => m !! k
  end.
Proof.
  revert m. induction l as [|a l IH]; intros m; [done|].
  rewrite keyed_children_from_cons, IH, filter_cons.
  destruct (decide (Asteroid.id a = k)) as [<-|Hne].
  - rewrite last_cons, lookup_insert_eq.
    by destruct (last (filter _ l)).
  - by rewrite lookup_insert_ne.
Qed.

(** X9.  Looking a key up among the rendered items, with or without unique
    ids: the result is the item of the last record carrying that id, and
    there is none exactly when no record carries it. *)
Theorem keyed_children_lookup_last (data : SceneData) (k : string) :
  let items := asteroid_items (AsteroidScene data) in
  keyed_children items !! k =
    asteroid_group <$> last (filter (fun a => Asteroid.id a = k) (asteroids data)) ∧
  (keyed_children items !! k = None ↔ k ∉ Asteroid.id <$> asteroids data).
Proof.
  intros items. subst items. rewrite asteroid_items_AsteroidScene.
  unfold keyed_children. rewrite keyed_children_from_last, lookup_empty.
  split; [by destruct (last _)|].
  rewrite list_elem_of_fmap.
  destruct (last _) as [a|] eqn:Hlast; cbn.
  - split; [done|]. intros Hk. exfalso. apply Hk.
    apply last_Some_elem_of, list_elem_of_filter in Hlast as [<- Ha]. eauto.
  - split; [|done]. intros _ (a & -> & Ha).
    apply last_None in Hlast.
    assert (a ∈ filter (λ b, Asteroid.id b = Asteroid.id a) (asteroids data))
      as Hin by by apply list_elem_of_filter.
    rewrite Hlast in Hin. by apply elem_of_nil in Hin.
Qed.

(** X10.  Reordering the records of a payload reorders the meshes and the
    polylines and changes nothing else; with unique ids the association of
    keys to items is the same map. *)
Theorem AsteroidScene_payload_order (d1 d2 : SceneData) :
  asteroids d1 ≡ₚ asteroids d2 →
  spheres (AsteroidScene d1) ≡ₚ spheres (AsteroidScene d2) ∧
  lines (AsteroidScene d1) ≡ₚ lines (AsteroidScene d2) ∧
  (NoDup (Asteroid.id <$> asteroids d1) →
   keyed_children (asteroid_items (AsteroidScene d1)) =
   keyed_children (asteroid_items (AsteroidScene d2))).
Proof.
  intros Hperm. rewrite !spheres_AsteroidScene, !lines_AsteroidScene.
  split; [by rewrite Hperm|]. split; [by rewrite Hperm|].
  intros Hnd. apply map_eq. intros k.
  rewrite !asteroid_items_AsteroidScene. unfold keyed_children.
  assert (NoDup (Asteroid.id <$> asteroids d2)) as Hnd2 by by rewrite <- Hperm.
  destruct (decide (k ∈ Asteroid.id <$> asteroids d1)) as [Hk|Hk].
  - apply list_elem_of_fmap in Hk as (a & -> & Ha).
    assert (a ∈ asteroids d2) as Ha2 by by rewrite <- Hperm.
    apply list_elem_of_lookup in Ha as [i Hi].
    apply list_elem_of_lookup in Ha2 as [j Hj].
    rewrite (keyed_children_from_lookup ∅ _ i a Hnd Hi).
    by rewrite (keyed_children_from_lookup ∅ _ j a Hnd2 Hj).
  - rewrite (keyed_children_from_other ∅ _ k Hk).
    rewrite keyed_children_from_other; [done|]. by rewrite <- Hperm.
Qed.

Lemma AsteroidScene_payload_order_witness :
  let eros := Asteroid.mk "433" "Eros" (2, 0, 1)%float 0.5%float
                [(2, 0, 1); (0, 0, 3)]%float in
  let apophis := Asteroid.mk "99942" "Apophis" (-1, 0.25, 4)%float 0.125%float
                   [(-1, 0.25, 4); (1, 0.25, -4)]%float in
  let d1 := {| asteroids := [eros; apophis] |} in
  let d2 := {| asteroids := [apophis; eros] |} in
  asteroids d1 ≡ₚ asteroids d2 ∧
  NoDup (Asteroid.id <$> asteroids d1) ∧
  spheres (AsteroidScene d1) ≡ₚ spheres (AsteroidScene d2) ∧
  lines (AsteroidScene d1) ≡ₚ lines (AsteroidScene d2) ∧
  keyed_children (asteroid_items (AsteroidScene d1)) =
  keyed_children (asteroid_items (AsteroidScene d2)).
Proof.
  intros eros apophis d1 d2.
  assert (asteroids d1 ≡ₚ asteroids d2) as Hperm by apply perm_swap.
  assert (NoDup (Asteroid.id <$> asteroids d1)) as Hnd.
  { vm_compute. compute_done. }
  pose proof (AsteroidScene_payload_order d1 d2 Hperm) as (Hs & Hl & Hk).
  split; [exact Hperm|]. split; [exact Hnd|]. split; [exact Hs|].
  split; [exact Hl|exact (Hk Hnd)].
Defined.
End SceneMore.
